(** * Reflector: a metadata registry attached to objects

    Shallow embedding of [src/index.ts] (the [Reflector] class of
    rbxts-reflector) and proofs of the properties stated about it.

    The program keeps, in a field [__metadataStore] of a target object, a
    [Map<string, Map<string, any>>]: scope id to metadata map. The field
    is read as any other field, so an object that has none of its own reads
    the one of the object it inherits from. The embedding threads the
    collection of these fields (the heap) through a small state-and-error
    monad, so that reads, writes and raised errors are all visible in the
    statements. *)

From stdpp Require Import gmap strings list pretty.

Open Scope string_scope.

(** ** Values *)

(** An object (a table, a class, an instance). It is known by its own
    identity and by the object its missing fields are read from: the
    superclass of a class, the class of an instance. That link is set when
    the object is made and the program never changes it. Two objects are
    the same exactly when their references are equal. *)
Inductive ref : Type :=
  | Root (id : positive)
  | Sub (id : positive) (super : ref).

Global Instance ref_eq_dec : EqDecision ref.
Proof. solve_decision. Defined.

Fixpoint ref_path (r : ref) : list positive :=
  match r with
  | Root i => [i]
  | Sub i s => i :: ref_path s
  end.

Fixpoint path_ref (l : list positive) : option ref :=
  match l with
  | [] => None
  | i :: l' =>
      match l' with
      | [] => Some (Root i)
      | _ :: _ => option_map (Sub i) (path_ref l')
      end
  end.

Lemma path_ref_path (r : ref) : path_ref (ref_path r) = Some r.
Proof.
  induction r as [i|i s IH]; [done|].
  simpl. destruct (ref_path s) as [|j l] eqn:E.
  - by destruct s.
  - by rewrite IH.
Qed.

Global Instance ref_countable : Countable ref :=
  inj_countable ref_path path_ref path_ref_path.

(** Identity of a symbol used as a property key. *)
Definition symbol := positive.

(** The values of type [any] that the operations tell apart: the absent
    value, strings (the overload test is [typeIs(x, "string")]) and objects,
    the only values that can carry the field. *)
Inductive any : Type :=
  | Undefined
  | Str (s : string)
  | Obj (r : ref).

Global Instance any_eq_dec : EqDecision any.
Proof. solve_decision. Defined.

(** [type PropertyKey = string | symbol] *)
Inductive PropertyKey : Type :=
  | PString (s : string)
  | PSymbol (y : symbol).

Global Instance PropertyKey_eq_dec : EqDecision PropertyKey.
Proof. solve_decision. Defined.

(** [x === undefined] *)
Definition is_undefined (v : any) : bool :=
  match v with Undefined => true | _ => false end.

(** [typeIs(x, "string")] *)
Definition typeIs_string (v : any) : bool :=
  match v with Str _ => true | _ => false end.

(** Truthiness of a value used as a condition ([target && ...]): only the
    absent value is falsy among the values of [any]. *)
Definition truthy (v : any) : bool :=
  match v with Undefined => false | _ => true end.

(** ** Maps

    A [Map<string, V>] of roblox-ts is a table of the Luau runtime: one
    entry per key, [set] on a present key replaces the value where it
    stands, [set] on a new key adds an entry, and [get] of a key that has
    no entry is [undefined]. The entries are kept as a list; a table
    promises no order of iteration, and the list gives the order in which
    the keys were first set. *)
Definition Map (V : Type) : Type := list (string * V).

Fixpoint Map_get {V : Type} (m : Map V) (k : string) : option V :=
  match m with
  | [] => None
  | (k', v) :: m' => if String.eqb k k' then Some v else Map_get m' k
  end.

Definition Map_has {V : Type} (m : Map V) (k : string) : bool :=
  match Map_get m k with Some _ => true | None => false end.

Fixpoint Map_set {V : Type} (m : Map V) (k : string) (v : V) : Map V :=
  match m with
  | [] => [(k, v)]
  | (k', v') :: m' =>
      if String.eqb k k' then (k, v) :: m' else (k', v') :: Map_set m' k v
  end.

Fixpoint Map_delete {V : Type} (m : Map V) (k : string) : Map V :=
  match m with
  | [] => []
  | (k', v') :: m' =>
      if String.eqb k k' then Map_delete m' k else (k', v') :: Map_delete m' k
  end.

(** [map.forEach(f)] as a left fold over the entries. *)
Definition Map_forEach {V A : Type} (m : Map V) (f : A -> V -> string -> A)
    (init : A) : A :=
  fold_left (fun acc kv => f acc (snd kv) (fst kv)) m init.

(** [type MetadataStore = Map<string, Map<string, any>>] *)
Definition MetadataStore : Type := Map (Map any).

(** The value a metadata map gives for a key: [map.get(k)], which is
    [undefined] for a key that is not there. *)
Definition Map_get_any (m : Map any) (k : string) : any :=
  match Map_get m k with Some v => v | None => Undefined end.

(** [map.set(k, v)] on a metadata map: the value is [any], and a table
    entry set to [undefined] is no entry. *)
Definition Map_set_any (m : Map any) (k : string) (v : any) : Map any :=
  if is_undefined v then Map_delete m k else Map_set m k v.

(** ** State and errors

    The heap records, for each object, the content of its own
    [__metadataStore] field; an object with no entry has no such field of
    its own. A store is created by [createOrGetMetadataStore] and is only
    ever reachable through the field of the object it was created on, so a
    reference to a store is represented by the reference of that object,
    and a mutation of the store is a mutation of the heap at that
    reference. *)
Abbreviation Heap := (gmap ref MetadataStore).

Inductive Error : Type :=
  | IndexError (v : any)   (* a field read or assigned on a value without fields *)
  | UndefinedCall           (* a method called on [undefined] *)
  | NotAString (v : any).   (* an argument outside the declared overloads *)

(** The outcome of a computation: a value or a raised error, in both cases
    with the heap as it is at that point. *)
Inductive Res (A : Type) : Type :=
  | Ok (a : A) (h : Heap)
  | Raise (e : Error) (h : Heap).
Arguments Ok {A} a h.
Arguments Raise {A} e h.

Definition M (A : Type) : Type := Heap -> Res A.

Definition ret {A : Type} (a : A) : M A := fun h => Ok a h.

Definition raise {A : Type} (e : Error) : M A := fun h => Raise e h.

Definition bind {A B : Type} (c : M A) (k : A -> M B) : M B :=
  fun h => match c h with
           | Ok a h' => k a h'
           | Raise e h' => Raise e h'
           end.

Declare Scope reflect_scope.
Delimit Scope reflect_scope with reflect.
Notation "x <- c ;; k" := (bind c (fun x => k))
  (at level 100, c at next level, right associativity) : reflect_scope.
Notation "c ;; k" := (bind c (fun _ => k))
  (at level 100, right associativity) : reflect_scope.
Open Scope reflect_scope.

(** The heap a computation leaves behind, however it ends. *)
Definition heap_after {A : Type} (r : Res A) : Heap :=
  match r with Ok _ h => h | Raise _ h => h end.

(** The object on which the read of [r.__metadataStore] finds the field:
    [r] itself when it has the field, otherwise where the read of the
    object it inherits from finds it. *)
Fixpoint holder (h : Heap) (r : ref) : option ref :=
  match h !! r with
  | Some _ => Some r
  | None =>
      match r with
      | Root _ => None
      | Sub _ s => holder h s
      end
  end.

(** The store that the read of [r.__metadataStore] gives. *)
Fixpoint field (h : Heap) (r : ref) : option MetadataStore :=
  match h !! r with
  | Some st => Some st
  | None =>
      match r with
      | Root _ => None
      | Sub _ s => field h s
      end
  end.

(** [target.__metadataStore] read as a value. Indexing the absent value
    raises; a string has no such field. *)
Definition readStoreField (target : any) : M (option MetadataStore) :=
  fun h => match target with
           | Obj r => Ok (field h r) h
           | Str _ => Ok None h
           | Undefined => Raise (IndexError Undefined) h
           end.

(** [target.__metadataStore] read as a reference to the store. *)
Definition readStoreRef (target : any) : M (option ref) :=
  fun h => match target with
           | Obj r => Ok (holder h r) h
           | Str _ => Ok None h
           | Undefined => Raise (IndexError Undefined) h
           end.

(** [target.__metadataStore = new Map()]: the assignment makes the field
    on the target itself. *)
Definition writeNewStore (target : any) : M unit :=
  fun h => match target with
           | Obj r => Ok tt (<[r := []]> h)
           | _ => Raise (IndexError target) h
           end.

(** [metadataStore.set(keyId, new Map())] through a store reference. *)
Definition Store_set_new (metadataStore : option ref) (keyId : string) : M unit :=
  fun h => match metadataStore with
           | Some r =>
               match h !! r with
               | Some st => Ok tt (<[r := Map_set st keyId []]> h)
               | None => Raise UndefinedCall h
               end
           | None => Raise UndefinedCall h
           end.

(** [metadataStore.get(keyId)!.set(metadataKey, metadataValue)]: the map
    found under [keyId] is mutated where it is. *)
Definition Store_get_set (metadataStore : option ref) (keyId : string)
    (metadataKey : string) (metadataValue : any) : M unit :=
  fun h => match metadataStore with
           | Some r =>
               match h !! r with
               | Some st =>
                   match Map_get st keyId with
                   | Some m =>
                       Ok tt (<[r := Map_set st keyId
                                       (Map_set_any m metadataKey metadataValue)]> h)
                   | None => Raise UndefinedCall h
                   end
               | None => Raise UndefinedCall h
               end
           | None => Raise UndefinedCall h
           end.

(** [x as string] on an argument the overloads declare to be a string. The
    map keys of the model are strings, as in the declared type of the
    store. A call that passes something else as the key is outside the
    declared overloads and outside this model: it ends in [NotAString], and
    no statement below is about such a call. *)
Definition as_string (v : any) : M string :=
  match v with
  | Str s => ret s
  | _ => raise (NotAString v)
  end.

(** What [defineMetadata] returns: the decorator of the declarative form, or
    nothing. *)
Inductive DefineResult : Type :=
  | Decorator (f : any -> option PropertyKey -> M unit)
  | Void.

(** ** A host for the examples

    A rendering of objects and symbols in the style of the Luau runtime,
    used where a statement is evaluated on explicit inputs. *)
Definition ref_id (r : ref) : positive :=
  match r with Root i | Sub i _ => i end.

Definition tostring_table (r : ref) : string :=
  "table: " +:+ pretty (Npos (ref_id r)).

Definition tostring_sym (y : symbol) : string :=
  "Symbol(" +:+ pretty (Npos y) +:+ ")".

(** A host in which every object is rendered by the same class name. *)
Definition tostring_class (r : ref) : string := "MyClass".

(** The class and the value of the examples in the documentation, and a
    class that extends the first. *)
Definition MyClass : any := Obj (Root 1).

Definition myObject : any := Obj (Root 2).

Definition SubClass : any := Obj (Sub 3 (Root 1)).

(** ** The program *)

Section Reflector.

(** [tostring] of an object and of a symbol is the host's; nothing is
    assumed about it (in particular it need not be injective). *)
Variable tostring_object : ref -> string.
Variable tostring_symbol : symbol -> string.

Definition tostring (v : any) : string :=
  match v with
  | Undefined => "nil"
  | Str s => s
  | Obj r => tostring_object r
  end.

Definition tostring_key (p : PropertyKey) : string :=
  match p with
  | PString s => s
  | PSymbol y => tostring_symbol y
  end.

(** [getKeyId] *)
Definition getKeyId (target : any) (propertyKey : option PropertyKey) : string :=
  match propertyKey with
  | None => tostring target
  | Some p => tostring target +:+ "." +:+ tostring_key p
  end.

(** [getMapKeys]: the result array starts empty (the size only reserves
    room) and every key is pushed in iteration order. *)
Definition getMapKeys {V : Type} (map : Map V) : list string :=
  Map_forEach map (fun result _ key => (result ++ [key])%list) [].

(** [Reflector.getMetadataStore] *)
Definition getMetadataStore (target : any) : M (option MetadataStore) :=
  if is_undefined target then ret None
  else
    c <- (if truthy target
          then f <- readStoreField target ;;
               ret (match f with None => true | Some _ => false end)
          else ret false) ;;
    if (c : bool) then ret None else readStoreField target.

(** [Reflector.createOrGetMetadataStore] *)
Definition createOrGetMetadataStore (target : any) : M (option ref) :=
  c <- (if truthy target
        then f <- readStoreField target ;;
             ret (match f with None => true | Some _ => false end)
        else ret false) ;;
  (if (c : bool) then writeNewStore target else ret tt) ;;
  readStoreRef target.

(** [Reflector.hasMetadata] *)
Definition hasMetadata (target : any) (metadataKey : string)
    (propertyKey : option PropertyKey) : M bool :=
  metadataStore <- getMetadataStore target ;;
  match metadataStore with
  | None => ret false
  | Some st =>
      let keyId := getKeyId target propertyKey in
      if negb (Map_has st keyId) then ret false
      else
        match Map_get st keyId with
        | None => raise UndefinedCall
        | Some m =>
            if is_undefined (Map_get_any m metadataKey) then ret false
            else ret true
        end
  end.

(** [Reflector.getMetadata] *)
Definition getMetadata (target : any) (metadataKey : string)
    (propertyKey : option PropertyKey) : M any :=
  metadataStore <- getMetadataStore target ;;
  match metadataStore with
  | None => ret Undefined
  | Some st =>
      let keyId := getKeyId target propertyKey in
      if Map_has st keyId then
        match Map_get st keyId with
        | None => raise UndefinedCall
        | Some m => ret (Map_get_any m metadataKey)
        end
      else ret Undefined
  end.

(** [Reflector.getMetadataKeys] *)
Definition getMetadataKeys (target : any) (propertyKey : option PropertyKey)
    : M (option (list string)) :=
  metadataStore <- getMetadataStore target ;;
  match metadataStore with
  | None => ret None
  | Some st =>
      let keyId := getKeyId target propertyKey in
      match Map_get st keyId with
      | None => ret None
      | Some metadata => ret (Some (getMapKeys metadata))
      end
  end.

(** [Reflector.defineMetadata], the implementation behind both overloads,
    on its four positional arguments. The third parameter of the returned
    decorator (the descriptor) is not used by it and is left out. *)
Definition defineMetadata (targetOrMetadataKey metadataKeyOrValue metadataValue : any)
    (propertyKey : option PropertyKey) : M DefineResult :=
  if is_undefined metadataValue
     && match propertyKey with None => true | Some _ => false end
     && typeIs_string targetOrMetadataKey
  then
    metadataKey <- as_string targetOrMetadataKey ;;
    let metadataValue := metadataKeyOrValue in
    ret (Decorator (fun target propertyKey =>
      metadataStore <- createOrGetMetadataStore target ;;
      let keyId := getKeyId target propertyKey in
      hasMetadata_ <- hasMetadata target metadataKey propertyKey ;;
      (if negb hasMetadata_ then Store_set_new metadataStore keyId else ret tt) ;;
      Store_get_set metadataStore keyId metadataKey metadataValue))
  else
    let target := targetOrMetadataKey in
    metadataKey <- as_string metadataKeyOrValue ;;
    metadataStore <- createOrGetMetadataStore target ;;
    let keyId := getKeyId target propertyKey in
    hasMetadata_ <- hasMetadata target metadataKey propertyKey ;;
    (if negb hasMetadata_ then Store_set_new metadataStore keyId else ret tt) ;;
    Store_get_set metadataStore keyId metadataKey metadataValue ;;
    ret Void.

(** ** Summaries of the operations

    What the operations compute, written as plain functions of the heap;
    the lemmas below show that the program computes exactly these. *)

(** The slot of a target: the store that the read of its field finds, its
    own or one it inherits. *)
Definition slot (target : any) (h : Heap) : option MetadataStore :=
  match target with
  | Obj r => field h r
  | _ => None
  end.

(** The store a target has in a field of its own. *)
Definition own_slot (target : any) (h : Heap) : option MetadataStore :=
  match target with
  | Obj r => h !! r
  | _ => None
  end.

(** The metadata map of a scope, if the slot and the map exist. *)
Definition scope (target : any) (propertyKey : option PropertyKey) (h : Heap)
    : option (Map any) :=
  match slot target h with
  | Some st => Map_get st (getKeyId target propertyKey)
  | None => None
  end.

Definition has_in (o : option (Map any)) (metadataKey : string) : bool :=
  match o with
  | Some m => negb (is_undefined (Map_get_any m metadataKey))
  | None => false
  end.

Definition get_in (o : option (Map any)) (metadataKey : string) : any :=
  match o with
  | Some m => Map_get_any m metadataKey
  | None => Undefined
  end.

(** The map a definition writes into: the one of the scope when it
    already gives the key a value, a new one otherwise. *)
Definition written_map (o : option (Map any)) (metadataKey : string) : Map any :=
  if has_in o metadataKey then match o with Some m => m | None => [] end
  else [].

(** The metadata map of a scope after a definition in it. *)
Definition defined_map (o : option (Map any)) (metadataKey : string)
    (metadataValue : any) : Map any :=
  Map_set_any (written_map o metadataKey) metadataKey metadataValue.

(** A store after a definition in it. *)
Definition define_store (st : MetadataStore) (keyId metadataKey : string)
    (metadataValue : any) : MetadataStore :=
  Map_set st keyId (defined_map (Map_get st keyId) metadataKey metadataValue).

(** The object whose store a definition on [r] writes: the one the read of
    the field finds, or [r] itself when it finds none. *)
Definition written_holder (r : ref) (h : Heap) : ref :=
  default r (holder h r).

Definition define_heap (r : ref) (metadataKey : string) (metadataValue : any)
    (propertyKey : option PropertyKey) (h : Heap) : Heap :=
  <[written_holder r h :=
      define_store (default [] (field h r)) (getKeyId (Obj r) propertyKey)
        metadataKey metadataValue]> h.

(** ** Calls and runs

    A call that may change the store is either an imperative definition or
    the application of a decorator obtained from the declarative form. *)
Inductive Call : Type :=
  | Imperative (target : any) (metadataKey : string) (metadataValue : any)
      (propertyKey : option PropertyKey)
  | Annotate (metadataKey : string) (metadataValue : any)
      (target : any) (propertyKey : option PropertyKey).

Definition perform (c : Call) : M unit :=
  match c with
  | Imperative target metadataKey metadataValue propertyKey =>
      defineMetadata target (Str metadataKey) metadataValue propertyKey ;;
      ret tt
  | Annotate metadataKey metadataValue target propertyKey =>
      d <- defineMetadata (Str metadataKey) metadataValue Undefined None ;;
      match d with
      | Decorator f => f target propertyKey
      | Void => ret tt
      end
  end.

(** The heap after a list of calls made one after the other; a call that
    raises leaves the heap as it was when it raised, and the next call
    goes on from there. *)
Definition run (cs : list Call) (h : Heap) : Heap :=
  fold_left (fun h c => heap_after (perform c h)) cs h.

(** The target, the key and the member of a call, and its scope id. *)
Definition call_target (c : Call) : any :=
  match c with
  | Imperative t _ _ _ | Annotate _ _ t _ => t
  end.


Definition call_member (c : Call) : option PropertyKey :=
  match c with
  | Imperative _ _ _ p | Annotate _ _ _ p => p
  end.

Definition call_keyId (c : Call) : string :=
  getKeyId (call_target c) (call_member c).


(** What a call does to the heap: a definition on an object, nothing on
    anything else. *)
Definition call_effect (c : Call) (h : Heap) : Heap :=
  match c with
  | Imperative (Obj r) k v p | Annotate k v (Obj r) p => define_heap r k v p h
  | _ => h
  end.

(** No metadata map of the heap holds more than one entry. *)
Definition small (h : Heap) : Prop :=
  forall r st keyId m,
    h !! r = Some st -> Map_get st keyId = Some m -> length m <= 1.

(** The three reads give, in two heaps, the same results for a scope. *)
Definition reads_agree (target : any) (propertyKey : option PropertyKey)
    (h h' : Heap) : Prop :=
  (exists ks, getMetadataKeys target propertyKey h = Ok ks h
              /\ getMetadataKeys target propertyKey h' = Ok ks h')
  /\ forall K,
       (exists b, hasMetadata target K propertyKey h = Ok b h
                  /\ hasMetadata target K propertyKey h' = Ok b h')
       /\ (exists v, getMetadata target K propertyKey h = Ok v h
                     /\ getMetadata target K propertyKey h' = Ok v h').

(** ** Maps *)

Lemma Map_get_set_eq {V : Type} (m : Map V) (k : string) (v : V) :
  Map_get (Map_set m k v) k = Some v.
Proof.
  induction m as [|[k' v'] m IH]; simpl.
  - by rewrite String.eqb_refl.
  - destruct (String.eqb k k') eqn:E; simpl.
    + by rewrite String.eqb_refl.
    + by rewrite E.
Qed.

Lemma Map_get_set_ne {V : Type} (m : Map V) (k k' : string) (v : V) :
  k <> k' -> Map_get (Map_set m k v) k' = Map_get m k'.
Proof.
  intros Hne. induction m as [|[k0 v0] m IH]; simpl.
  - destruct (String.eqb k' k) eqn:E; [|done].
    apply String.eqb_eq in E. congruence.
  - destruct (String.eqb k k0) eqn:E; simpl.
    + apply String.eqb_eq in E. subst k0.
      destruct (String.eqb k' k) eqn:E'; [|done].
      apply String.eqb_eq in E'. congruence.
    + by rewrite IH.
Qed.

Lemma Map_set_set {V : Type} (m : Map V) (k : string) (v v' : V) :
  Map_set (Map_set m k v) k v' = Map_set m k v'.
Proof.
  induction m as [|[k0 v0] m IH]; simpl.
  - by rewrite String.eqb_refl.
  - destruct (String.eqb k k0) eqn:E; simpl.
    + by rewrite String.eqb_refl.
    + by rewrite E, IH.
Qed.

Lemma Map_get_delete_eq {V : Type} (m : Map V) (k : string) :
  Map_get (Map_delete m k) k = None.
Proof.
  induction m as [|[k' v'] m IH]; simpl; [done|].
  destruct (String.eqb k k') eqn:E; simpl; [done|]. by rewrite E.
Qed.


(** What a metadata map gives after a [set]: the value set for the key,
    what it gave before for another key. *)
Lemma Map_get_any_set_eq (m : Map any) (k : string) (v : any) :
  Map_get_any (Map_set_any m k v) k = v.
Proof.
  unfold Map_get_any, Map_set_any. destruct v; simpl.
  - by rewrite Map_get_delete_eq.
  - by rewrite Map_get_set_eq.
  - by rewrite Map_get_set_eq.
Qed.


Lemma Map_has_get {V : Type} (m : Map V) (k : string) :
  Map_has m k = true <-> is_Some (Map_get m k).
Proof.
  unfold Map_has. destruct (Map_get m k); split; intros H; try done.
Qed.

Lemma Map_forEach_push {V : Type} (m : Map V) (acc : list string) :
  Map_forEach m (fun result _ key => (result ++ [key])%list) acc
  = (acc ++ m.*1)%list.
Proof.
  unfold Map_forEach. revert acc.
  induction m as [|[k v] m IH]; intros acc; simpl.
  - by rewrite app_nil_r.
  - rewrite IH. by rewrite <- app_assoc.
Qed.

Lemma getMapKeys_fst {V : Type} (m : Map V) : getMapKeys m = m.*1.
Proof. unfold getMapKeys. by rewrite Map_forEach_push. Qed.

(** Setting a key that is present keeps every key where it is. *)
Lemma Map_set_keys_present {V : Type} (m : Map V) (k : string) (v : V) :
  Map_has m k = true -> (Map_set m k v).*1 = m.*1.
Proof.
  unfold Map_has. induction m as [|[k0 v0] m IH]; [done|].
  cbn [Map_get Map_set]. destruct (String.eqb k k0) eqn:E.
  - apply String.eqb_eq in E. by subst.
  - intros H. rewrite !fmap_cons. f_equal. by apply IH.
Qed.

(** ** Scope ids *)

Lemma append_length (a b : string) :
  String.length (a +:+ b) = String.length a + String.length b.
Proof. induction a as [|c a IH]; simpl; [done|]. by rewrite IH. Qed.

Lemma append_inj_r (a b c : string) : a +:+ b = a +:+ c -> b = c.
Proof. induction a as [|x a IH]; simpl; [done|]. intros [= H]. auto. Qed.

(** The scope of a member is never the scope of the target itself. *)
Lemma getKeyId_member_ne_entity (target : any) (p : PropertyKey) :
  getKeyId target (Some p) <> getKeyId target None.
Proof.
  simpl. intros H. apply (f_equal String.length) in H.
  rewrite !append_length in H. simpl in H. lia.
Qed.

(** Members with different names have different scopes. *)
Lemma getKeyId_member_ne_member (target : any) (m1 m2 : string) :
  m1 <> m2 ->
  getKeyId target (Some (PString m1)) <> getKeyId target (Some (PString m2)).
Proof.
  simpl. intros Hne H. by do 2 apply append_inj_r in H.
Qed.

(** ** The read of the field *)

Lemma field_holder (h : Heap) (r : ref) :
  field h r = match holder h r with Some o => h !! o | None => None end.
Proof.
  induction r as [i|i s IH]; simpl.
  - by destruct (h !! Root i) eqn:E; rewrite ?E.
  - by destruct (h !! Sub i s) eqn:E; rewrite ?E.
Qed.


Lemma holder_is_Some (h : Heap) (r o : ref) :
  holder h r = Some o -> is_Some (h !! o).
Proof.
  induction r as [i|i s IH]; simpl.
  - destruct (h !! Root i) eqn:E; [|done]. intros [= <-]. by rewrite E.
  - destruct (h !! Sub i s) eqn:E; [|done]. intros [= <-]. by rewrite E.
Qed.

Lemma holder_None_field (h : Heap) (r : ref) :
  holder h r = None -> field h r = None /\ h !! r = None.
Proof.
  intros Hh. rewrite field_holder, Hh. split; [done|].
  destruct r; simpl in Hh; by destruct (h !! _).
Qed.

Lemma holder_own (h : Heap) (r : ref) (st : MetadataStore) :
  h !! r = Some st -> holder h r = Some r /\ field h r = Some st.
Proof. intros E. destruct r; simpl; by rewrite E. Qed.

(** The read of the field of [r] after the store that a definition on [r]
    writes has been put in place. *)
Lemma field_written_holder (h : Heap) (r : ref) (st : MetadataStore) :
  field (<[written_holder r h := st]> h) r = Some st
  /\ holder (<[written_holder r h := st]> h) r = Some (written_holder r h).
Proof.
  unfold written_holder.
  destruct (holder h r) as [o|] eqn:Ho; simpl.
  - induction r as [i|i s IH]; simpl in *.
    + destruct (h !! Root i) eqn:E; [|done]. injection Ho as <-.
      by rewrite lookup_insert_eq.
    + destruct (h !! Sub i s) eqn:E.
      * injection Ho as <-. by rewrite lookup_insert_eq.
      * destruct (decide (o = Sub i s)) as [->|Hne].
        { apply holder_is_Some in Ho. rewrite E in Ho. by destruct Ho. }
        rewrite lookup_insert_ne, E by done. by apply IH.
  - destruct (holder_own (<[r := st]> h) r st) as [? ?];
      [by rewrite lookup_insert_eq|done].
Qed.

(** The read of the field of any object [t] after a definition on [r]:
    either what it was, or the store just written, and then [t] read
    before what [r] read. *)
Lemma field_insert_cases (h : Heap) (r t : ref) (st : MetadataStore) :
  field (<[written_holder r h := st]> h) t = field h t
  \/ (field (<[written_holder r h := st]> h) t = Some st
      /\ field h t = field h r).
Proof.
  set (o := written_holder r h).
  assert (field h o = field h r) as Ho.
  { unfold o, written_holder. destruct (holder h r) as [o'|] eqn:E; [|done].
    simpl. rewrite (field_holder h r), E.
    destruct (holder_is_Some h r o' E) as [st' Hst'].
    destruct (holder_own h o' st' Hst') as [_ Hf].
    by rewrite Hf, Hst'. }
  induction t as [i|i s IH]; simpl.
  - destruct (decide (o = Root i)) as [Heq|Hne].
    + right. rewrite <- Heq, lookup_insert_eq. split; [done|].
      rewrite <- Ho. subst o. rewrite Heq. done.
    + left. by rewrite lookup_insert_ne.
  - destruct (decide (o = Sub i s)) as [Heq|Hne].
    + right. rewrite <- Heq, lookup_insert_eq. split; [done|].
      rewrite <- Ho. subst o. rewrite Heq. done.
    + rewrite lookup_insert_ne by done.
      destruct (h !! Sub i s) eqn:E; [by left|]. apply IH.
Qed.

(** ** The operations compute their summaries *)

Lemma getMetadataStore_spec (target : any) (h : Heap) :
  getMetadataStore target h = Ok (slot target h) h.
Proof.
  unfold getMetadataStore, bind, ret, readStoreField, slot.
  destruct target as [|s|r]; simpl; try done.
  destruct (field h r) eqn:E; simpl; by rewrite ?E.
Qed.

Lemma hasMetadata_spec (target : any) (metadataKey : string)
    (propertyKey : option PropertyKey) (h : Heap) :
  hasMetadata target metadataKey propertyKey h
  = Ok (has_in (scope target propertyKey h) metadataKey) h.
Proof.
  unfold hasMetadata, bind. rewrite getMetadataStore_spec.
  unfold scope. destruct (slot target h) as [st|]; [|done].
  unfold Map_has, has_in.
  destruct (Map_get st (getKeyId target propertyKey)) as [m|]; simpl; [|done].
  by destruct (is_undefined (Map_get_any m metadataKey)).
Qed.

Lemma getMetadata_spec (target : any) (metadataKey : string)
    (propertyKey : option PropertyKey) (h : Heap) :
  getMetadata target metadataKey propertyKey h
  = Ok (get_in (scope target propertyKey h) metadataKey) h.
Proof.
  unfold getMetadata, bind. rewrite getMetadataStore_spec.
  unfold scope. destruct (slot target h) as [st|]; [|done].
  unfold Map_has, get_in.
  by destruct (Map_get st (getKeyId target propertyKey)) as [m|].
Qed.

Lemma getMetadataKeys_spec (target : any) (propertyKey : option PropertyKey)
    (h : Heap) :
  getMetadataKeys target propertyKey h
  = Ok (fmap (M := option) (fun m : Map any => m.*1) (scope target propertyKey h)) h.
Proof.
  unfold getMetadataKeys, bind. rewrite getMetadataStore_spec.
  unfold scope. destruct (slot target h) as [st|]; [|done].
  destruct (Map_get st (getKeyId target propertyKey)) as [m|]; simpl; [|done].
  unfold ret. by rewrite getMapKeys_fst.
Qed.

Lemma has_in_get_in (o : option (Map any)) (metadataKey : string) :
  has_in o metadataKey = negb (is_undefined (get_in o metadataKey)).
Proof. by destruct o. Qed.

(** ** Definitions on an object *)

Lemma createOrGetMetadataStore_obj (r : ref) (h : Heap) :
  createOrGetMetadataStore (Obj r) h
  = Ok (Some (written_holder r h))
       (<[written_holder r h := default [] (field h r)]> h).
Proof.
  unfold createOrGetMetadataStore, bind, ret, readStoreField, writeNewStore,
    readStoreRef, written_holder; simpl.
  destruct (holder h r) as [o|] eqn:Ho.
  - destruct (holder_is_Some h r o Ho) as [st Hst].
    rewrite (field_holder h r), Ho. unfold MetadataStore, Map in *.
    rewrite Hst. simpl. rewrite Ho. by rewrite insert_id.
  - destruct (holder_None_field h r Ho) as [Hf Hr].
    unfold MetadataStore, Map in *. rewrite Hf. simpl.
    destruct (holder_own (<[r := []]> h) r []) as [Hh _];
      [by rewrite lookup_insert_eq|].
    unfold MetadataStore, Map in *. by rewrite Hh.
Qed.

Lemma scope_insert_obj (r : ref) (st : MetadataStore)
    (propertyKey : option PropertyKey) (h : Heap) :
  scope (Obj r) propertyKey (<[written_holder r h := st]> h)
  = Map_get st (getKeyId (Obj r) propertyKey).
Proof.
  unfold scope, slot.
  by destruct (field_written_holder h r st) as [-> _].
Qed.

(** The statements shared by the decorator and the imperative form, on an
    object: evaluation of the chain, statement by statement. *)
Ltac define_steps r h propertyKey metadataKey :=
  unfold bind at 1; rewrite createOrGetMetadataStore_obj;
  unfold bind at 1; rewrite hasMetadata_spec, scope_insert_obj;
  unfold define_heap, define_store, defined_map, written_map;
  set (keyId := getKeyId (Obj r) propertyKey);
  set (st := default [] (field h r));
  set (o := written_holder r h);
  destruct (has_in (Map_get st keyId) metadataKey) eqn:Hhas; simpl;
  [ destruct (Map_get st keyId) as [m|] eqn:Hm; [|done];
    unfold bind, ret, Store_get_set; rewrite lookup_insert_eq, Hm;
    by rewrite insert_insert_eq
  | unfold bind, ret, Store_set_new, Store_get_set;
    rewrite lookup_insert_eq, lookup_insert_eq, Map_get_set_eq;
    by rewrite !insert_insert_eq, Map_set_set ].

Lemma imperative_steps_obj (r : ref) (metadataKey : string)
    (metadataValue : any) (propertyKey : option PropertyKey) (h : Heap) :
  (metadataStore <- createOrGetMetadataStore (Obj r) ;;
   hasMetadata_ <- hasMetadata (Obj r) metadataKey propertyKey ;;
   (if negb hasMetadata_
    then Store_set_new metadataStore (getKeyId (Obj r) propertyKey)
    else ret tt) ;;
   Store_get_set metadataStore (getKeyId (Obj r) propertyKey)
     metadataKey metadataValue ;;
   ret Void) h
  = Ok Void (define_heap r metadataKey metadataValue propertyKey h).
Proof. define_steps r h propertyKey metadataKey. Qed.

Lemma decorator_steps_obj (r : ref) (metadataKey : string)
    (metadataValue : any) (propertyKey : option PropertyKey) (h : Heap) :
  (metadataStore <- createOrGetMetadataStore (Obj r) ;;
   hasMetadata_ <- hasMetadata (Obj r) metadataKey propertyKey ;;
   (if negb hasMetadata_
    then Store_set_new metadataStore (getKeyId (Obj r) propertyKey)
    else ret tt) ;;
   Store_get_set metadataStore (getKeyId (Obj r) propertyKey)
     metadataKey metadataValue) h
  = Ok tt (define_heap r metadataKey metadataValue propertyKey h).
Proof. define_steps r h propertyKey metadataKey. Qed.

(** The imperative form on an object returns nothing and leaves the heap
    of [define_heap]. *)
Lemma defineMetadata_obj (r : ref) (metadataKey : string) (metadataValue : any)
    (propertyKey : option PropertyKey) (h : Heap) :
  defineMetadata (Obj r) (Str metadataKey) metadataValue propertyKey h
  = Ok Void (define_heap r metadataKey metadataValue propertyKey h).
Proof.
  unfold defineMetadata. simpl. rewrite !andb_false_r.
  unfold bind at 1. simpl.
  apply imperative_steps_obj.
Qed.

(** The declarative form builds a decorator and touches nothing. *)
Lemma defineMetadata_declarative (metadataKey : string) (metadataValue : any)
    (h : Heap) :
  exists ann,
    defineMetadata (Str metadataKey) metadataValue Undefined None h
    = Ok (Decorator ann) h
    /\ forall r propertyKey h',
         ann (Obj r) propertyKey h'
         = Ok tt (define_heap r metadataKey metadataValue propertyKey h').
Proof.
  unfold defineMetadata. simpl. unfold bind at 1. simpl.
  eexists. split; [reflexivity|].
  intros r propertyKey h'. apply decorator_steps_obj.
Qed.

(** A definition on anything but an object raises before it writes. *)
Lemma defineMetadata_undefined (metadataKey : string) (metadataValue : any)
    (propertyKey : option PropertyKey) (h : Heap) :
  defineMetadata Undefined (Str metadataKey) metadataValue propertyKey h
  = Raise (IndexError Undefined) h.
Proof.
  unfold defineMetadata. simpl. by rewrite !andb_false_r.
Qed.

Lemma heap_after_defineMetadata_str (s metadataKey : string) (metadataValue : any)
    (propertyKey : option PropertyKey) (h : Heap) :
  heap_after (defineMetadata (Str s) (Str metadataKey) metadataValue propertyKey h) = h.
Proof.
  unfold defineMetadata.
  destruct metadataValue, propertyKey; done.
Qed.

Lemma heap_after_perform (c : Call) (h : Heap) :
  heap_after (perform c h) = call_effect c h.
Proof.
  destruct c as [t k v p|k v t p]; unfold perform.
  - destruct t as [|s|r].
    + unfold bind. by rewrite defineMetadata_undefined.
    + unfold bind at 1.
      pose proof (heap_after_defineMetadata_str s k v p h) as H.
      by destruct (defineMetadata (Str s) (Str k) v p h).
    + unfold bind. by rewrite defineMetadata_obj.
  - destruct (defineMetadata_declarative k v h) as (ann & Hann & Heff).
    unfold bind. rewrite Hann.
    destruct t as [|s|r].
    + revert Hann. unfold defineMetadata; simpl. unfold bind at 1; simpl.
      intros [= <-]. done.
    + revert Hann. unfold defineMetadata; simpl. unfold bind at 1; simpl.
      intros [= <-]. done.
    + by rewrite Heff.
Qed.

(** ** The scopes after a definition *)

Lemma scope_field (r : ref) (propertyKey : option PropertyKey) (h : Heap) :
  scope (Obj r) propertyKey h
  = Map_get (default [] (field h r)) (getKeyId (Obj r) propertyKey).
Proof. unfold scope, slot. by destruct (field h r). Qed.

Lemma scope_define_heap_same (r : ref) (metadataKey : string)
    (metadataValue : any) (propertyKey : option PropertyKey) (h : Heap) :
  scope (Obj r) propertyKey (define_heap r metadataKey metadataValue propertyKey h)
  = Some (defined_map (scope (Obj r) propertyKey h) metadataKey metadataValue).
Proof.
  unfold define_heap. rewrite scope_insert_obj.
  unfold define_store. rewrite Map_get_set_eq.
  by rewrite scope_field.
Qed.

(** A definition on [r] leaves a scope of any target as it was, or, when
    the target reads the store that [r] reads and the scope ids are the
    same string, gives it the map of the definition. *)
Lemma scope_define_heap_cases (r : ref) (metadataKey : string)
    (metadataValue : any) (propertyKey : option PropertyKey)
    (target : any) (propertyKey' : option PropertyKey) (h : Heap) :
  scope target propertyKey' (define_heap r metadataKey metadataValue propertyKey h)
  = scope target propertyKey' h
  \/ (getKeyId target propertyKey' = getKeyId (Obj r) propertyKey
      /\ scope target propertyKey'
           (define_heap r metadataKey metadataValue propertyKey h)
         = Some (defined_map (scope target propertyKey' h)
                   metadataKey metadataValue)).
Proof.
  destruct target as [|s|t]; [by left|by left|].
  unfold define_heap.
  set (st' := define_store _ _ _ _).
  destruct (field_insert_cases h r t st') as [Hf|[Hf Ht]].
  - left. unfold scope, slot. by rewrite Hf.
  - rewrite !scope_field. unfold MetadataStore, Map in *. rewrite Hf, Ht.
    simpl. unfold st', define_store.
    destruct (decide (getKeyId (Obj r) propertyKey
                      = getKeyId (Obj t) propertyKey')) as [Hk|Hk].
    + right. split; [done|]. by rewrite <- Hk, Map_get_set_eq.
    + left. by rewrite Map_get_set_ne.
Qed.

Lemma scope_define_heap_other (r : ref) (metadataKey : string)
    (metadataValue : any) (propertyKey : option PropertyKey)
    (target : any) (propertyKey' : option PropertyKey) (h : Heap) :
  getKeyId (Obj r) propertyKey <> getKeyId target propertyKey' ->
  scope target propertyKey' (define_heap r metadataKey metadataValue propertyKey h)
  = scope target propertyKey' h.
Proof.
  intros Hne.
  destruct (scope_define_heap_cases r metadataKey metadataValue propertyKey
              target propertyKey' h) as [H|[Hk _]]; [done|].
  by rewrite Hk in Hne.
Qed.

Lemma run_app (cs1 cs2 : list Call) (h : Heap) :
  run (cs1 ++ cs2)%list h = run cs2 (run cs1 h).
Proof. unfold run. apply fold_left_app. Qed.

Lemma run_snoc (cs : list Call) (c : Call) (h : Heap) :
  run (cs ++ [c])%list h = call_effect c (run cs h).
Proof. rewrite run_app. simpl. apply heap_after_perform. Qed.

(** An invariant of a property that holds of the empty heap and that every
    call keeps holds after every run. *)
Lemma run_invariant (P : Heap -> Prop) (ok : Call -> Prop) :
  (forall c h, ok c -> P h -> P (call_effect c h)) ->
  forall cs h, Forall ok cs -> P h -> P (run cs h).
Proof.
  intros Hstep cs. induction cs as [|c cs IH]; intros h Hok HP; [done|].
  inversion Hok; subst. simpl. apply IH; [done|].
  rewrite heap_after_perform. by apply Hstep.
Qed.

(** ** Metadata maps hold one entry

    A definition starts a new map unless the key already has a value in
    the map of the scope; so, from the empty heap, a map never holds a
    second key. *)

Lemma has_in_small (m : Map any) (metadataKey : string) :
  length m <= 1 -> has_in (Some m) metadataKey = true ->
  exists x, m = [(metadataKey, x)].
Proof.
  destruct m as [|[k x] [|kv m]]; simpl; try lia; try done.
  intros _. unfold Map_get_any. simpl.
  destruct (String.eqb metadataKey k) eqn:E; [|done].
  apply String.eqb_eq in E. subst. eauto.
Qed.

Lemma defined_map_small (o : option (Map any)) (metadataKey : string)
    (metadataValue : any) :
  (forall m, o = Some m -> length m <= 1) ->
  defined_map o metadataKey metadataValue
  = if is_undefined metadataValue then [] else [(metadataKey, metadataValue)].
Proof.
  intros Hsmall. unfold defined_map, written_map, Map_set_any.
  destruct (has_in o metadataKey) eqn:Hhas;
    [|by destruct (is_undefined metadataValue)].
  destruct o as [m|]; [|done].
  destruct (has_in_small m metadataKey) as [x ->]; auto.
  simpl. rewrite String.eqb_refl. by destruct (is_undefined metadataValue).
Qed.

Lemma scope_small (target : any) (propertyKey : option PropertyKey)
    (h : Heap) (m : Map any) :
  small h -> scope target propertyKey h = Some m -> length m <= 1.
Proof.
  unfold scope, slot. intros Hsmall.
  destruct target as [|s|r]; try done.
  rewrite field_holder.
  destruct (holder h r) as [o|]; [|done].
  destruct (h !! o) as [st|] eqn:E; [|done].
  intros Hm. by eapply Hsmall.
Qed.

Lemma scope_define_heap_small (r : ref) (metadataKey : string)
    (metadataValue : any) (propertyKey : option PropertyKey) (h : Heap) :
  small h ->
  scope (Obj r) propertyKey (define_heap r metadataKey metadataValue propertyKey h)
  = Some (if is_undefined metadataValue then []
          else [(metadataKey, metadataValue)]).
Proof.
  intros Hsmall. rewrite scope_define_heap_same. f_equal.
  apply defined_map_small. intros m. by apply scope_small.
Qed.

Lemma define_heap_small (r : ref) (metadataKey : string)
    (metadataValue : any) (propertyKey : option PropertyKey) (h : Heap) :
  small h ->
  define_heap r metadataKey metadataValue propertyKey h
  = <[written_holder r h :=
        Map_set (default [] (field h r)) (getKeyId (Obj r) propertyKey)
          (if is_undefined metadataValue then []
           else [(metadataKey, metadataValue)])]> h.
Proof.
  intros Hsmall. unfold define_heap, define_store. do 2 f_equal.
  apply defined_map_small. intros m. rewrite <- scope_field.
  by apply scope_small.
Qed.

Lemma field_small (r : ref) (st : MetadataStore) (keyId : string)
    (m : Map any) (h : Heap) :
  small h -> field h r = Some st -> Map_get st keyId = Some m ->
  length m <= 1.
Proof.
  intros Hsmall. rewrite field_holder.
  destruct (holder h r) as [o|]; [|done].
  intros Hst Hm. by eapply Hsmall.
Qed.

Lemma small_define_heap (r : ref) (metadataKey : string)
    (metadataValue : any) (propertyKey : option PropertyKey) (h : Heap) :
  small h -> small (define_heap r metadataKey metadataValue propertyKey h).
Proof.
  intros Hsmall. rewrite define_heap_small by done.
  intros r' st keyId m Hst Hm.
  destruct (decide (r' = written_holder r h)) as [->|Hr].
  - rewrite lookup_insert_eq in Hst. injection Hst as <-.
    destruct (decide (getKeyId (Obj r) propertyKey = keyId)) as [<-|Hk].
    + rewrite Map_get_set_eq in Hm. injection Hm as <-.
      destruct (is_undefined metadataValue); simpl; lia.
    + rewrite Map_get_set_ne in Hm by done.
      destruct (field h r) as [st|] eqn:E; [|done].
      by eapply field_small.
  - rewrite lookup_insert_ne in Hst by done. by eapply Hsmall.
Qed.


Lemma small_call_effect (c : Call) (h : Heap) :
  small h -> small (call_effect c h).
Proof.
  intros Hsmall.
  destruct c as [[|s|r] k v p|k v [|s|r] p]; simpl; try done;
    by apply small_define_heap.
Qed.

Lemma small_empty : small ∅.
Proof. intros r st keyId m Hst. by rewrite lookup_empty in Hst. Qed.

Lemma small_run (cs : list Call) : small (run cs ∅).
Proof.
  apply (run_invariant small (fun _ => True)).
  - intros c h _. apply small_call_effect.
  - by apply Forall_forall.
  - apply small_empty.
Qed.

(** ** The order of the keys *)

(** Redefining, with a value other than the absent one, a key that has a
    value keeps every key of the scope where it is. *)
Lemma redefine_keeps_keys (r : ref) (metadataKey : string)
    (metadataValue : any) (propertyKey : option PropertyKey) (h : Heap)
    (ks : option (list string)) :
  metadataValue <> Undefined ->
  hasMetadata (Obj r) metadataKey propertyKey h = Ok true h ->
  getMetadataKeys (Obj r) propertyKey h = Ok ks h ->
  exists h',
    defineMetadata (Obj r) (Str metadataKey) metadataValue propertyKey h
    = Ok Void h'
    /\ getMetadataKeys (Obj r) propertyKey h' = Ok ks h'.
Proof.
  intros HV. rewrite hasMetadata_spec, getMetadataKeys_spec.
  intros [= Hhas] [= <-]. eexists. split; [apply defineMetadata_obj|].
  rewrite getMetadataKeys_spec, scope_define_heap_same.
  f_equal. unfold defined_map, written_map, Map_set_any. rewrite Hhas.
  destruct (scope (Obj r) propertyKey h) as [m|]; [|done].
  destruct metadataValue; [done| |]; simpl; f_equal;
    apply Map_set_keys_present;
    unfold has_in, Map_get_any in Hhas; unfold Map_has;
    by destruct (Map_get m metadataKey).
Qed.

(** C1, as the code has it: in every state reached from the empty heap,
    after [defineMetadata(T, K1, V1)] and then [defineMetadata(T, K2, V2)]
    on an object [T], [getMetadataKeys(T)] returns the list holding [K2]
    alone, or the empty list when [V2] is the absent value. The second
    definition finds no value for [K2], starts a new map for the scope, and
    the entry of [K1] is gone; the claim's two keys in order of definition
    are not returned. *)
Theorem getMetadataKeys_after_two_defines (cs : list Call) (r : ref)
    (K1 K2 : string) (V1 V2 : any) :
  let h := run (cs ++ [Imperative (Obj r) K1 V1 None;
                       Imperative (Obj r) K2 V2 None])%list ∅ in
  getMetadataKeys (Obj r) None h
  = Ok (Some (if is_undefined V2 then [] else [K2])) h.
Proof.
  intros h. subst h.
  change (cs ++ [Imperative (Obj r) K1 V1 None; Imperative (Obj r) K2 V2 None])%list
    with (cs ++ [Imperative (Obj r) K1 V1 None] ++ [Imperative (Obj r) K2 V2 None])%list.
  rewrite app_assoc, run_snoc. simpl.
  rewrite getMetadataKeys_spec, scope_define_heap_small.
  - by destruct (is_undefined V2).
  - rewrite run_snoc. apply small_call_effect, small_run.
Qed.

(** ** An absent target *)

(** C2, amended: the imperative [defineMetadata] with an absent target
    leaves the whole store state as it was, but it does not return: it
    raises when the absent target is indexed for its store. *)
Theorem defineMetadata_absent_target_raises (K : string) (V : any)
    (propertyKey : option PropertyKey) (h : Heap) :
  defineMetadata Undefined (Str K) V propertyKey h
  = Raise (IndexError Undefined) h.
Proof. apply defineMetadata_undefined. Qed.

(** ** Presence before and after a definition *)




(** ** The two forms of [defineMetadata] *)

Lemma bind_Ok_inv {A B : Type} (c : M A) (k : A -> M B) (h h' : Heap) (b : B) :
  bind c k h = Ok b h' -> exists a h0, c h = Ok a h0 /\ k a h0 = Ok b h'.
Proof. unfold bind. destruct (c h) as [a h0|e h0]; [eauto|done]. Qed.

Lemma getMetadata_define_heap (r : ref) (metadataKey : string)
    (metadataValue : any) (propertyKey : option PropertyKey) (h : Heap) :
  let h' := define_heap r metadataKey metadataValue propertyKey h in
  getMetadata (Obj r) metadataKey propertyKey h' = Ok metadataValue h'.
Proof.
  intros h'. subst h'.
  rewrite getMetadata_spec, scope_define_heap_same. f_equal.
  unfold get_in, defined_map. by rewrite Map_get_any_set_eq.
Qed.

(** C4: a call of [defineMetadata] returns a decorator exactly when its
    third and fourth arguments are absent and its first is a string, and
    then the heap is as before; in every other case the first argument is
    taken as the target: on an object the call returns nothing and the
    key has the value in the scope, on a string it raises when the store
    is attached. *)
Theorem defineMetadata_dispatch (a1 a2 a3 : any) (a4 : option PropertyKey)
    (h : Heap) :
  ((exists ann h', defineMetadata a1 a2 a3 a4 h = Ok (Decorator ann) h')
   <-> (a3 = Undefined /\ a4 = None /\ exists s, a1 = Str s))
  /\ (forall ann h',
        defineMetadata a1 a2 a3 a4 h = Ok (Decorator ann) h' -> h' = h)
  /\ (forall r k, a1 = Obj r -> a2 = Str k ->
        exists h', defineMetadata a1 a2 a3 a4 h = Ok Void h'
                   /\ getMetadata (Obj r) k a4 h' = Ok a3 h')
  /\ (forall s k, a1 = Str s -> a2 = Str k ->
        ~ (a3 = Undefined /\ a4 = None) ->
        defineMetadata a1 a2 a3 a4 h = Raise (IndexError (Str s)) h).
Proof.
  assert (forall ann h',
    is_undefined a3
    && match a4 with Some _ => false | None => true end
    && typeIs_string a1 = false ->
    defineMetadata a1 a2 a3 a4 h <> Ok (Decorator ann) h') as Himp.
  { intros ann h' Hc Hd. unfold defineMetadata in Hd. rewrite Hc in Hd.
    repeat (apply bind_Ok_inv in Hd; destruct Hd as (? & ? & _ & Hd)).
    discriminate Hd. }
  split; [split|split; [|split]].
  - intros (ann & h' & Hd).
    destruct a3; try (by eapply Himp in Hd);
      destruct a4; try (by eapply Himp in Hd);
      destruct a1; try (by eapply Himp in Hd).
    eauto.
  - intros (-> & -> & s & ->). unfold defineMetadata. simpl.
    unfold bind. simpl. eauto.
  - intros ann h' Hd.
    destruct (is_undefined a3
              && match a4 with Some _ => false | None => true end
              && typeIs_string a1) eqn:Hc.
    + unfold defineMetadata in Hd. rewrite Hc in Hd.
      apply bind_Ok_inv in Hd. destruct Hd as (k & h0 & Hk & Hd).
      destruct a1; try done. by injection Hk as _ <-; injection Hd as _ <-.
    + by eapply Himp in Hd.
  - intros r k -> ->. eexists. split; [apply defineMetadata_obj|].
    apply getMetadata_define_heap.
  - intros s k -> -> Hn. unfold defineMetadata.
    destruct a3, a4; simpl; try (by destruct Hn); done.
Qed.

(** ** Scopes are apart *)

Lemma heap_after_defineMetadata (target : any) (metadataKey : string)
    (metadataValue : any) (propertyKey : option PropertyKey) (h : Heap) :
  heap_after (defineMetadata target (Str metadataKey) metadataValue propertyKey h)
  = call_effect (Imperative target metadataKey metadataValue propertyKey) h.
Proof.
  destruct target as [|s|r]; simpl.
  - by rewrite defineMetadata_undefined.
  - apply heap_after_defineMetadata_str.
  - by rewrite defineMetadata_obj.
Qed.

(** C5: [defineMetadata(T, K, V1, "m1")] changes neither what
    [getMetadata(T, K)] returns nor what [getMetadata(T, K, "m2")] returns
    for a member name [m2] other than [m1]. *)
Theorem member_define_frames_other_scopes (T : any) (K : string) (V1 : any)
    (m1 m2 : string) (h : Heap) :
  m1 <> m2 ->
  let h' := heap_after (defineMetadata T (Str K) V1 (Some (PString m1)) h) in
  exists v v2,
    getMetadata T K None h = Ok v h
    /\ getMetadata T K None h' = Ok v h'
    /\ getMetadata T K (Some (PString m2)) h = Ok v2 h
    /\ getMetadata T K (Some (PString m2)) h' = Ok v2 h'.
Proof.
  intros Hne h'. subst h'. rewrite heap_after_defineMetadata.
  rewrite !getMetadata_spec.
  exists (get_in (scope T None h) K),
         (get_in (scope T (Some (PString m2)) h) K).
  destruct T as [|s|r]; simpl; try done.
  rewrite !scope_define_heap_other; [done| |].
  - by apply getKeyId_member_ne_member.
  - apply getKeyId_member_ne_entity.
Qed.

(** ** Reads *)

(** C6: each of [getMetadataKeys], [hasMetadata] and [getMetadata] returns
    with the heap it was called in, whatever the target, key and member;
    no slot and no metadata map is created by a read. *)
Theorem reads_leave_heap_unchanged (T : any) (K : string)
    (propertyKey : option PropertyKey) (h : Heap) :
  (exists ks, getMetadataKeys T propertyKey h = Ok ks h)
  /\ (exists b, hasMetadata T K propertyKey h = Ok b h)
  /\ (exists v, getMetadata T K propertyKey h = Ok v h).
Proof.
  rewrite getMetadataKeys_spec, hasMetadata_spec, getMetadata_spec.
  repeat split; eexists; reflexivity.
Qed.

(** ** The value read back *)

(** C7: after a sequence of [defineMetadata(T, K, V)] calls on an object
    [T] for the same key in the scope of [T] itself, each of which returns
    normally, [getMetadata(T, K)] returns the value of the last call. *)
Theorem getMetadata_returns_latest (r : ref) (K : string) (vs : list any)
    (v : any) (h : Heap) :
  let calls := map (fun x => Imperative (Obj r) K x None) (vs ++ [v])%list in
  let h' := run calls h in
  Forall (fun c => forall h0, exists h1, perform c h0 = Ok tt h1) calls
  /\ getMetadata (Obj r) K None h' = Ok v h'.
Proof.
  intros calls h'. split.
  - apply Forall_forall. intros c Hc.
    apply list_elem_of_fmap in Hc. destruct Hc as (x & -> & _).
    intros h0. simpl. unfold bind. rewrite defineMetadata_obj. eauto.
  - subst h' calls. rewrite map_app. simpl. rewrite run_snoc. simpl.
    apply getMetadata_define_heap.
Qed.

(** ** The decorator *)


(** ** Presence *)

(** C9, amended: [hasMetadata(T, K, m)] returns, with the heap unchanged,
    and it returns true exactly when the read of the field of [T] finds a
    store ([T]'s own or one it inherits), that store has a metadata map
    under the scope id of [(T, m)], and that map gives [K] a value other
    than the absent value; for an absent [T] it returns false. *)
Theorem hasMetadata_true_iff (T : any) (K : string)
    (propertyKey : option PropertyKey) (h : Heap) :
  exists b,
    hasMetadata T K propertyKey h = Ok b h
    /\ (b = true <->
        exists st m v,
          slot T h = Some st
          /\ Map_get st (getKeyId T propertyKey) = Some m
          /\ Map_get m K = Some v
          /\ v <> Undefined)
    /\ (T = Undefined -> b = false).
Proof.
  eexists. split; [apply hasMetadata_spec|]. split.
  - unfold scope, has_in, Map_get_any.
    destruct (slot T h) as [st|] eqn:Hst;
      [|split; [done|]; by intros (st' & m' & v' & ? & _)].
    destruct (Map_get st (getKeyId T propertyKey)) as [m|] eqn:Hm;
      [|split; [done|]; intros (st' & m' & v' & [= <-] & ? & _); congruence].
    destruct (Map_get m K) as [v|] eqn:Hv.
    + split.
      * intros Hb. exists st, m, v.
        split; [done|]. split; [done|]. split; [done|].
        intros ->. discriminate Hb.
      * intros (st' & m' & v' & [= <-] & Hm' & Hv' & Hne).
        rewrite Hm in Hm'. injection Hm' as <-.
        rewrite Hv in Hv'. injection Hv' as <-.
        by destruct v.
    + split; [done|].
      intros (st' & m' & v' & [= <-] & Hm' & Hv' & _).
      rewrite Hm in Hm'. injection Hm' as <-. congruence.
  - by intros ->.
Qed.

(** C10: in every state, [hasMetadata(T, K, m)] returns true exactly when
    [getMetadata(T, K, m)] returns a value other than the absent value. *)
Theorem hasMetadata_agrees_with_getMetadata (T : any) (K : string)
    (propertyKey : option PropertyKey) (h : Heap) :
  exists b v,
    hasMetadata T K propertyKey h = Ok b h
    /\ getMetadata T K propertyKey h = Ok v h
    /\ (b = true <-> v <> Undefined).
Proof.
  do 2 eexists. split; [apply hasMetadata_spec|].
  split; [apply getMetadata_spec|].
  rewrite has_in_get_in.
  destruct (get_in (scope T propertyKey h) K); simpl; split; done.
Qed.

(** * Further properties of the operations *)

Lemma reads_agree_scope (target : any) (propertyKey : option PropertyKey)
    (h h' : Heap) :
  scope target propertyKey h' = scope target propertyKey h ->
  reads_agree target propertyKey h h'.
Proof.
  intros Hs. unfold reads_agree.
  rewrite !getMetadataKeys_spec, Hs. split; [eexists; split; reflexivity|].
  intros K. rewrite !hasMetadata_spec, !getMetadata_spec, Hs.
  split; eexists; split; reflexivity.
Qed.

Lemma scope_call_effect_other_keyId (c : Call) (target : any)
    (propertyKey : option PropertyKey) (h : Heap) :
  call_keyId c <> getKeyId target propertyKey ->
  scope target propertyKey (call_effect c h) = scope target propertyKey h.
Proof.
  unfold call_keyId. intros Hne.
  destruct c as [[|s|r] k v p|k v [|s|r] p]; simpl in *; try done;
    by apply scope_define_heap_other.
Qed.

(** ** Scopes are apart by their ids *)

(** X1: a call, imperative or through a decorator, changes no result of
    [getMetadataKeys], [hasMetadata] and [getMetadata] in a scope whose
    scope id is another string than the scope id of the call, whatever the
    two targets are and whatever store they read. *)
Theorem call_frames_other_scope_ids (c : Call) (T : any)
    (propertyKey : option PropertyKey) (h : Heap) :
  call_keyId c <> getKeyId T propertyKey ->
  reads_agree T propertyKey h (heap_after (perform c h)).
Proof.
  intros Hne. apply reads_agree_scope.
  rewrite heap_after_perform. by apply scope_call_effect_other_keyId.
Qed.

(** X2: a definition in the scope of a target itself, imperative or through
    a decorator, changes no result of the three reads in the scope of any of
    its members, whether the member is named by a string or by a symbol. *)
Theorem entity_define_frames_member_scopes (T : any) (K : string) (V : any)
    (p : PropertyKey) (h : Heap) :
  reads_agree T (Some p) h (heap_after (perform (Imperative T K V None) h))
  /\ reads_agree T (Some p) h (heap_after (perform (Annotate K V T None) h)).
Proof.
  split; apply reads_agree_scope; rewrite heap_after_perform;
    (destruct T as [|s|r]; simpl; [done|done|]);
    apply scope_define_heap_other;
    intros Heq; by apply (getKeyId_member_ne_entity (Obj r) p).
Qed.

(** ** One key to a scope *)

(** X3: in every state reached from the empty heap, the list that
    [getMetadataKeys] returns for a scope holds at most one key: a metadata
    map never holds a second key. *)
Theorem getMetadataKeys_at_most_one_key (cs : list Call) (T : any)
    (propertyKey : option PropertyKey) :
  let h := run cs ∅ in
  exists ks,
    getMetadataKeys T propertyKey h = Ok ks h
    /\ forall l, ks = Some l -> length l <= 1.
Proof.
  intros h. rewrite getMetadataKeys_spec. eexists. split; [reflexivity|].
  intros l Hl.
  destruct (scope T propertyKey h) as [m|] eqn:Hm; [|done].
  injection Hl as <-. rewrite length_fmap.
  eapply scope_small; [|exact Hm]. apply small_run.
Qed.

(** X4: defining a key that has no value in a scope erases every other key
    of that scope: afterwards another key is not listed by
    [getMetadataKeys], [getMetadata] returns the absent value for it and
    [hasMetadata] returns false. *)
Theorem define_new_key_erases_others (r : ref) (K1 K2 : string) (V2 : any)
    (propertyKey : option PropertyKey) (h : Heap) :
  K1 <> K2 ->
  hasMetadata (Obj r) K2 propertyKey h = Ok false h ->
  exists h' ks,
    defineMetadata (Obj r) (Str K2) V2 propertyKey h = Ok Void h'
    /\ getMetadataKeys (Obj r) propertyKey h' = Ok (Some ks) h'
    /\ (K1 ∉ ks)
    /\ getMetadata (Obj r) K1 propertyKey h' = Ok Undefined h'
    /\ hasMetadata (Obj r) K1 propertyKey h' = Ok false h'.
Proof.
  intros Hne. rewrite hasMetadata_spec. intros [= Hhas].
  exists (define_heap r K2 V2 propertyKey h),
         (if is_undefined V2 then [] else [K2]).
  split; [apply defineMetadata_obj|].
  rewrite getMetadataKeys_spec, getMetadata_spec, hasMetadata_spec.
  rewrite scope_define_heap_same.
  unfold defined_map, written_map, Map_set_any. rewrite Hhas.
  destruct (is_undefined V2); simpl.
  - split; [done|]. split; [by intros ?%elem_of_nil|done].
  - split; [done|]. split; [by intros ->%list_elem_of_singleton|].
    unfold Map_get_any. simpl.
    destruct (String.eqb K1 K2) eqn:E; [|done].
    apply String.eqb_eq in E. done.
Qed.

(** ** Scope ids are renderings *)

(** X5: the scope of a member is found by the rendering of its key: where
    the host renders a symbol as some string, metadata defined for the
    member named by the symbol is read back for the member named by that
    string. *)
Theorem symbol_and_string_share_scope (y : symbol) (s : string) (r : ref)
    (K : string) (V : any) (h : Heap) :
  tostring_symbol y = s ->
  exists h',
    defineMetadata (Obj r) (Str K) V (Some (PSymbol y)) h = Ok Void h'
    /\ getMetadata (Obj r) K (Some (PString s)) h' = Ok V h'.
Proof.
  intros Hs. eexists. split; [apply defineMetadata_obj|].
  rewrite getMetadata_spec. f_equal.
  assert (getKeyId (Obj r) (Some (PString s)) = getKeyId (Obj r) (Some (PSymbol y)))
    as Hk by (simpl; by rewrite Hs).
  unfold scope. simpl slot. rewrite Hk.
  change (get_in (scope (Obj r) (Some (PSymbol y))
                    (define_heap r K V (Some (PSymbol y)) h)) K = V).
  rewrite scope_define_heap_same.
  unfold get_in, defined_map. by rewrite Map_get_any_set_eq.
Qed.

(** ** Errors *)

Lemma defineMetadata_str_imperative (s k : string) (a3 : any)
    (a4 : option PropertyKey) (h : Heap) :
  ~ (a3 = Undefined /\ a4 = None) ->
  defineMetadata (Str s) (Str k) a3 a4 h = Raise (IndexError (Str s)) h.
Proof.
  intros Hn. unfold defineMetadata.
  destruct a3, a4; simpl; try (by destruct Hn); done.
Qed.

Lemma defineMetadata_str_declarative (s : string) (v : any) (h : Heap) :
  exists ann, defineMetadata (Str s) v Undefined None h = Ok (Decorator ann) h.
Proof.
  unfold defineMetadata. simpl. unfold bind at 1. simpl. eauto.
Qed.

(** X6: with a string as metadata key, [defineMetadata] raises exactly when it
    is not the declarative form and its first argument is not an object;
    the error is the failed access to the field of that argument, and the
    heap at the raise is the heap of the call: nothing is written before. *)
Theorem defineMetadata_raises_iff (a1 : any) (k : string) (a3 : any)
    (a4 : option PropertyKey) (h : Heap) :
  ((exists e h', defineMetadata a1 (Str k) a3 a4 h = Raise e h')
   <-> ((forall r, a1 <> Obj r)
        /\ ~ (a3 = Undefined /\ a4 = None /\ exists s, a1 = Str s)))
  /\ forall e h',
       defineMetadata a1 (Str k) a3 a4 h = Raise e h' ->
       e = IndexError a1 /\ h' = h.
Proof.
  destruct a1 as [|s|r].
  - rewrite defineMetadata_undefined. split.
    + split; [|eauto]. intros _. split; [done|].
      by intros (_ & _ & s & ?).
    + by intros e h' [= <- <-].
  - destruct (decide (a3 = Undefined /\ a4 = None)) as [[-> ->]|Hn].
    + destruct (defineMetadata_str_declarative s (Str k) h) as [ann Hann].
      rewrite Hann. split.
      * split; [by intros (e & h' & ?)|].
        intros [_ Hc]. exfalso. apply Hc. eauto.
      * done.
    + rewrite defineMetadata_str_imperative by done. split.
      * split; [|eauto]. intros _. split; [done|].
        intros (H3 & H4 & _). by apply Hn.
      * by intros e h' [= <- <-].
  - rewrite defineMetadata_obj. split.
    + split; [by intros (e & h' & ?)|]. intros [Hn _]. by destruct (Hn r).
    + done.
Qed.

(** X7: the decorator of the declarative form raises when it is applied to a
    target that is not an object, an absent one or a string, and leaves the
    heap as it was. *)
Theorem decorator_raises_off_objects (K : string) (V : any) (h : Heap) :
  exists ann,
    defineMetadata (Str K) V Undefined None h = Ok (Decorator ann) h
    /\ forall propertyKey h0,
         ann Undefined propertyKey h0 = Raise (IndexError Undefined) h0
         /\ forall s,
              ann (Str s) propertyKey h0 = Raise (IndexError (Str s)) h0.
Proof.
  unfold defineMetadata. simpl. unfold bind at 1. simpl.
  eexists. split; [reflexivity|].
  intros propertyKey h0. split; [done|]. intros s. done.
Qed.

(** ** The slot *)

(** X8: [createOrGetMetadataStore] on an object whose field read finds a
    store, its own or one it inherits, returns that store and changes
    nothing; on an object whose read finds none it makes an empty store on
    the object itself and returns it; and a second call returns what the
    first returned and changes nothing. *)
Theorem createOrGetMetadataStore_finds_or_creates (r : ref) (h : Heap) :
  (forall o, holder h r = Some o ->
     createOrGetMetadataStore (Obj r) h = Ok (Some o) h)
  /\ (holder h r = None ->
      createOrGetMetadataStore (Obj r) h = Ok (Some r) (<[r := []]> h))
  /\ (forall res h',
        createOrGetMetadataStore (Obj r) h = Ok res h' ->
        createOrGetMetadataStore (Obj r) h' = Ok res h').
Proof.
  split; [|split].
  - intros o Ho. rewrite createOrGetMetadataStore_obj.
    unfold written_holder. rewrite Ho. simpl.
    destruct (holder_is_Some h r o Ho) as [st Hst].
    rewrite (field_holder h r), Ho.
    unfold MetadataStore, Map in *. rewrite Hst. simpl.
    by rewrite insert_id.
  - intros Ho. rewrite createOrGetMetadataStore_obj.
    unfold written_holder. rewrite Ho. simpl.
    destruct (holder_None_field h r Ho) as [Hf _].
    unfold MetadataStore, Map in *. by rewrite Hf.
  - intros res h'. rewrite createOrGetMetadataStore_obj. intros [= <- <-].
    rewrite createOrGetMetadataStore_obj.
    set (st := default [] (field h r)).
    destruct (field_written_holder h r st) as [Hf Hh].
    unfold written_holder at 1 3. unfold MetadataStore, Map in *.
    rewrite Hh, Hf. simpl. by rewrite insert_insert_eq.
Qed.

Lemma scope_is_Some_call_effect (c : Call) (target : any)
    (propertyKey : option PropertyKey) (h : Heap) :
  is_Some (scope target propertyKey h) ->
  is_Some (scope target propertyKey (call_effect c h)).
Proof.
  intros Hs.
  assert (forall r k v p,
    is_Some (scope target propertyKey (define_heap r k v p h))) as Hdef.
  { intros r k v p.
    destruct (scope_define_heap_cases r k v p target propertyKey h)
      as [->|[_ ->]]; [done|eauto]. }
  destruct c as [[|s|r] k v p|k v [|s|r] p]; simpl; try done; apply Hdef.
Qed.

(** X9: a metadata map, once it exists for a scope, exists after every further
    sequence of calls: [getMetadataKeys] never goes back from a list to the
    absent value. *)
Theorem getMetadataKeys_stays_present (cs : list Call) (T : any)
    (propertyKey : option PropertyKey) (h : Heap) (ks : list string) :
  getMetadataKeys T propertyKey h = Ok (Some ks) h ->
  exists ks',
    getMetadataKeys T propertyKey (run cs h) = Ok (Some ks') (run cs h).
Proof.
  rewrite !getMetadataKeys_spec. intros [= Hks].
  assert (is_Some (scope T propertyKey (run cs h))) as [m Hm].
  { apply (run_invariant (fun h => is_Some (scope T propertyKey h))
             (fun _ => True)).
    - intros c h0 _. apply scope_is_Some_call_effect.
    - by apply Forall_forall.
    - destruct (scope T propertyKey h); [eauto|done]. }
  rewrite Hm. simpl. eauto.
Qed.

(** ** The listing of the keys *)

(** X10: [getMapKeys] returns one key for each entry of the map, in the order of
    the entries, and a key is in the result exactly when the map has it. *)
Theorem getMapKeys_lists_the_keys {V : Type} (m : Map V) (k : string) :
  length (getMapKeys m) = length m
  /\ (k ∈ getMapKeys m <-> Map_has m k = true).
Proof.
  rewrite getMapKeys_fst. split; [apply length_fmap|].
  unfold Map_has. induction m as [|[k' v] m IH]; simpl.
  - split; [by intros ?%elem_of_nil|done].
  - rewrite elem_of_cons.
    destruct (String.eqb k k') eqn:E.
    + apply String.eqb_eq in E. subst. split; [done|by left].
    + rewrite IH. split; [|by right].
      intros [->|?]; [|done]. by rewrite String.eqb_refl in E.
Qed.

(** X11: a key for which [hasMetadata] returns true is among the keys that
    [getMetadataKeys] returns for the same scope. *)
Theorem hasMetadata_key_is_listed (T : any) (K : string)
    (propertyKey : option PropertyKey) (h : Heap) :
  hasMetadata T K propertyKey h = Ok true h ->
  exists ks,
    getMetadataKeys T propertyKey h = Ok (Some ks) h /\ K ∈ ks.
Proof.
  rewrite hasMetadata_spec, getMetadataKeys_spec. intros [= Hhas].
  destruct (scope T propertyKey h) as [m|]; [|done].
  eexists. split; [reflexivity|].
  unfold has_in, Map_get_any in Hhas.
  destruct (Map_get m K) as [v|] eqn:Hv; [|done].
  clear Hhas. induction m as [|[k' v'] m IH]; [done|].
  simpl in Hv. rewrite fmap_cons, elem_of_cons. simpl.
  destruct (String.eqb K k') eqn:E.
  - apply String.eqb_eq in E. by left.
  - right. by apply IH.
Qed.

(** X12: where [getMetadataKeys] returns the absent value for a scope (no slot
    on the target, or no metadata map for the scope), [hasMetadata] returns
    false and [getMetadata] the absent value for every key of that scope. *)
Theorem absent_keys_absent_values (T : any) (K : string)
    (propertyKey : option PropertyKey) (h : Heap) :
  getMetadataKeys T propertyKey h = Ok None h ->
  hasMetadata T K propertyKey h = Ok false h
  /\ getMetadata T K propertyKey h = Ok Undefined h.
Proof.
  rewrite getMetadataKeys_spec, hasMetadata_spec, getMetadata_spec.
  intros [= Hks]. by destruct (scope T propertyKey h).
Qed.

(** ** Inherited stores *)

(** X13: a definition on an object that has no store of its own but
    inherits one writes into the inherited store: the object still has no
    store of its own afterwards, and the value is read back through it. *)
Theorem define_writes_inherited_store (r o : ref) (K : string) (V : any)
    (propertyKey : option PropertyKey) (h : Heap) :
  h !! r = None ->
  holder h r = Some o ->
  exists h',
    defineMetadata (Obj r) (Str K) V propertyKey h = Ok Void h'
    /\ own_slot (Obj r) h' = None
    /\ is_Some (own_slot (Obj o) h')
    /\ getMetadata (Obj r) K propertyKey h' = Ok V h'.
Proof.
  intros Hr Ho. eexists. split; [apply defineMetadata_obj|].
  split; [|split; [|apply getMetadata_define_heap]].
  - unfold define_heap, written_holder, own_slot. rewrite Ho. simpl.
    destruct (decide (o = r)) as [->|Hne].
    + apply holder_is_Some in Ho. rewrite Hr in Ho. by destruct Ho.
    + by rewrite lookup_insert_ne.
  - unfold define_heap, written_holder, own_slot. rewrite Ho. simpl.
    rewrite lookup_insert_eq. eauto.
Qed.

(** X14: where the host renders an object and the object it inherits from
    by the same string, metadata defined on the second is read through the
    first as long as the first has no store of its own. *)
Theorem define_on_super_read_through_sub (i : positive) (s : ref)
    (K : string) (V : any) (h : Heap) :
  tostring_object (Sub i s) = tostring_object s ->
  h !! Sub i s = None ->
  exists h',
    defineMetadata (Obj s) (Str K) V None h = Ok Void h'
    /\ getMetadata (Obj (Sub i s)) K None h' = Ok V h'
    /\ hasMetadata (Obj (Sub i s)) K None h'
       = Ok (negb (is_undefined V)) h'.
Proof.
  intros Hts Hr. eexists. split; [apply defineMetadata_obj|].
  set (h' := define_heap s K V None h).
  assert (scope (Obj (Sub i s)) None h' = scope (Obj s) None h') as Hsc.
  { unfold scope, slot. simpl getKeyId. rewrite Hts.
    assert (h' !! Sub i s = None) as Hr'.
    { unfold h', define_heap.
      destruct (decide (written_holder s h = Sub i s)) as [Heq|Hne].
      - exfalso. unfold written_holder in Heq.
        destruct (holder h s) as [o|] eqn:Ho; simpl in Heq.
        + subst o. apply holder_is_Some in Ho. rewrite Hr in Ho.
          by destruct Ho.
        + clear -Heq. induction s as [j|j s' IH]; [done|].
          injection Heq as -> Heq. by apply IH.
      - by rewrite lookup_insert_ne. }
    simpl field. by rewrite Hr'. }
  rewrite getMetadata_spec, hasMetadata_spec, Hsc.
  unfold h'. rewrite scope_define_heap_same.
  unfold get_in, has_in, defined_map. by rewrite Map_get_any_set_eq.
Qed.

End Reflector.

(** * The statements on explicit inputs *)

Section Examples.

Local Abbreviation define := (defineMetadata tostring_table tostring_sym).
Local Abbreviation has := (hasMetadata tostring_table tostring_sym).
Local Abbreviation get := (getMetadata tostring_table tostring_sym).
Local Abbreviation keys := (getMetadataKeys tostring_table tostring_sym).

(** A heap in which [MyClass] has the key "version" in its own scope. *)
Local Abbreviation versioned :=
  ({[ Root 1 := [("table: 1", [("version", Str "1.0")])] ]} : Heap).

(** The example of the documentation of [getMetadataKeys]: two keys are
    defined on a class, and the keys listed afterwards are not
    ['version', 'author'] but ['author'] alone. *)
Example keys_of_documented_example :
  (define MyClass (Str "version") (Str "1.0") None ;;
   define MyClass (Str "author") (Str "John Doe") None ;;
   keys MyClass None) ∅
  = Ok (Some ["author"])
      {[ Root 1 := [("table: 1", [("author", Str "John Doe")])] ]}.
Proof. vm_compute. reflexivity. Qed.

(** C2 fails as stated: with an absent target the imperative
    [defineMetadata] does not return normally. *)
Lemma defineMetadata_absent_target_does_not_return :
  ~ exists res h',
      define Undefined (Str "version") (Str "1.0") None ∅ = Ok res h'.
Proof. intros (res & h' & H). vm_compute in H. discriminate H. Qed.


(** C3 fails as stated in a second way: where a class and the class that
    extends it are rendered by the same string, [hasMetadata(T, K)] is
    true on the second after a definition on the first, before any
    definition on the second. *)
Example hasMetadata_true_before_any_define_on_subclass :
  let h := heap_after
             (defineMetadata tostring_class tostring_sym
                MyClass (Str "version") (Str "1.0") None ∅) in
  hasMetadata tostring_class tostring_sym SubClass "version" None h
  = Ok true h.
Proof. vm_compute. reflexivity. Qed.


Lemma member_define_frames_other_scopes_witness :
  "method1" <> "method2"
  /\ let h := {[ Root 1 := [("table: 1", [("description", Str "a class")]);
                            ("table: 1.method2", [("description", Str "y")])] ]} in
     let h' := heap_after
                 (define MyClass (Str "description") (Str "x")
                    (Some (PString "method1")) h) in
     exists v v2,
       get MyClass "description" None h = Ok v h
       /\ get MyClass "description" None h' = Ok v h'
       /\ get MyClass "description" (Some (PString "method2")) h = Ok v2 h
       /\ get MyClass "description" (Some (PString "method2")) h' = Ok v2 h'.
Proof.
  assert ("method1" <> "method2") as Hne by discriminate.
  split; [exact Hne|].
  exact (member_define_frames_other_scopes tostring_table tostring_sym
           MyClass "description" (Str "x") "method1" "method2" _ Hne).
Defined.

(** C9 fails as stated: after a definition on a class and one on the class
    that extends it, [hasMetadata] is true on the second although it has
    no slot of its own; the entry is in the store of the first. *)
Lemma hasMetadata_true_without_own_slot :
  let h := run tostring_table tostring_sym
             [Imperative MyClass "description" (Str "a class") None;
              Imperative SubClass "version" (Str "1.0") None] ∅ in
  has SubClass "version" None h = Ok true h
  /\ own_slot SubClass h = None.
Proof. split; vm_compute; reflexivity. Qed.

Lemma call_frames_other_scope_ids_witness :
  call_keyId tostring_table tostring_sym
    (Imperative MyClass "version" (Str "1.0") None)
  <> getKeyId tostring_table tostring_sym myObject None
  /\ reads_agree tostring_table tostring_sym myObject None ∅
       (heap_after
          (perform tostring_table tostring_sym
             (Imperative MyClass "version" (Str "1.0") None) ∅)).
Proof.
  assert (call_keyId tostring_table tostring_sym
            (Imperative MyClass "version" (Str "1.0") None)
          <> getKeyId tostring_table tostring_sym myObject None) as Hne.
  { intros H. vm_compute in H. discriminate H. }
  split; [exact Hne|].
  exact (call_frames_other_scope_ids tostring_table tostring_sym
           (Imperative MyClass "version" (Str "1.0") None) myObject None ∅ Hne).
Defined.

Lemma define_new_key_erases_others_witness :
  "version" <> "author"
  /\ has MyClass "author" None versioned = Ok false versioned
  /\ exists h' ks,
       define MyClass (Str "author") (Str "John Doe") None versioned = Ok Void h'
       /\ keys MyClass None h' = Ok (Some ks) h'
       /\ ("version" ∉ ks)
       /\ get MyClass "version" None h' = Ok Undefined h'
       /\ has MyClass "version" None h' = Ok false h'.
Proof.
  assert ("version" <> "author") as Hne by discriminate.
  assert (has MyClass "author" None versioned = Ok false versioned) as Hno
    by reflexivity.
  split; [exact Hne|]. split; [exact Hno|].
  exact (define_new_key_erases_others tostring_table tostring_sym (Root 1)
           "version" "author" (Str "John Doe") None versioned Hne Hno).
Defined.

Lemma symbol_and_string_share_scope_witness :
  tostring_sym 1%positive = "Symbol(1)"
  /\ exists h',
       define MyClass (Str "tag") (Str "v") (Some (PSymbol 1%positive)) ∅
       = Ok Void h'
       /\ get MyClass "tag" (Some (PString "Symbol(1)")) h' = Ok (Str "v") h'.
Proof.
  assert (tostring_sym 1%positive = "Symbol(1)") as Hs by reflexivity.
  split; [exact Hs|].
  exact (symbol_and_string_share_scope tostring_table tostring_sym 1%positive
           "Symbol(1)" (Root 1) "tag" (Str "v") ∅ Hs).
Defined.

Lemma getMetadataKeys_stays_present_witness :
  keys MyClass None versioned = Ok (Some ["version"]) versioned
  /\ let cs := [Imperative MyClass "author" (Str "John Doe") None;
                Imperative myObject "version" (Str "3.0") None] in
     exists ks',
       keys MyClass None (run tostring_table tostring_sym cs versioned)
       = Ok (Some ks') (run tostring_table tostring_sym cs versioned).
Proof.
  assert (keys MyClass None versioned = Ok (Some ["version"]) versioned) as H
    by reflexivity.
  split; [exact H|].
  exact (getMetadataKeys_stays_present tostring_table tostring_sym
           [Imperative MyClass "author" (Str "John Doe") None;
            Imperative myObject "version" (Str "3.0") None]
           MyClass None versioned ["version"] H).
Defined.

Lemma hasMetadata_key_is_listed_witness :
  has MyClass "version" None versioned = Ok true versioned
  /\ exists ks,
       keys MyClass None versioned = Ok (Some ks) versioned /\ "version" ∈ ks.
Proof.
  assert (has MyClass "version" None versioned = Ok true versioned) as H
    by reflexivity.
  split; [exact H|].
  exact (hasMetadata_key_is_listed tostring_table tostring_sym MyClass
           "version" None versioned H).
Defined.

Lemma absent_keys_absent_values_witness :
  keys MyClass (Some (PString "method1")) versioned = Ok None versioned
  /\ has MyClass "version" (Some (PString "method1")) versioned
     = Ok false versioned
  /\ get MyClass "version" (Some (PString "method1")) versioned
     = Ok Undefined versioned.
Proof.
  assert (keys MyClass (Some (PString "method1")) versioned = Ok None versioned)
    as H by reflexivity.
  split; [exact H|].
  exact (absent_keys_absent_values tostring_table tostring_sym MyClass
           "version" (Some (PString "method1")) versioned H).
Defined.

Lemma define_writes_inherited_store_witness :
  versioned !! Sub 3 (Root 1) = None
  /\ holder versioned (Sub 3 (Root 1)) = Some (Root 1)
  /\ exists h',
       define SubClass (Str "author") (Str "John Doe") None versioned
       = Ok Void h'
       /\ own_slot SubClass h' = None
       /\ is_Some (own_slot MyClass h')
       /\ get SubClass "author" None h' = Ok (Str "John Doe") h'.
Proof.
  assert (versioned !! Sub 3 (Root 1) = None) as Hr by reflexivity.
  assert (holder versioned (Sub 3 (Root 1)) = Some (Root 1)) as Ho
    by reflexivity.
  split; [exact Hr|]. split; [exact Ho|].
  exact (define_writes_inherited_store tostring_table tostring_sym
           (Sub 3 (Root 1)) (Root 1) "author" (Str "John Doe") None
           versioned Hr Ho).
Defined.

Lemma define_on_super_read_through_sub_witness :
  tostring_class (Sub 3 (Root 1)) = tostring_class (Root 1)
  /\ (∅ : Heap) !! Sub 3 (Root 1) = None
  /\ exists h',
       defineMetadata tostring_class tostring_sym
         MyClass (Str "version") (Str "1.0") None ∅ = Ok Void h'
       /\ getMetadata tostring_class tostring_sym SubClass "version" None h'
          = Ok (Str "1.0") h'
       /\ hasMetadata tostring_class tostring_sym SubClass "version" None h'
          = Ok (negb (is_undefined (Str "1.0"))) h'.
Proof.
  assert (tostring_class (Sub 3 (Root 1)) = tostring_class (Root 1)) as Ht
    by reflexivity.
  assert ((∅ : Heap) !! Sub 3 (Root 1) = None) as Hr by reflexivity.
  split; [exact Ht|]. split; [exact Hr|].
  exact (define_on_super_read_through_sub tostring_class tostring_sym
           3%positive (Root 1) "version" (Str "1.0") ∅ Ht Hr).
Defined.

End Examples.
